(** * Verification of [twoSum] and of the input loop of [main] (a.cpp)

    The program reads integers from standard input, takes the last one as the
    target, and prints the indices of two elements of the sequence whose sum
    is the target.

    Data model
    - [int] is a 32-bit two's complement integer, carried as a [Z] in
      [INT_MIN .. INT_MAX]; arithmetic on it wraps around ([CInt.wrap]).
    - [std::vector<int>] is a [list Z]; [nums[i]] is list lookup.
    - [std::unordered_map<int,int>] is a [gmap Z Z]: [find] is lookup and
      [numMap[k] = v] is insert, which overwrites.
    - [std::cin] is the list of characters still to be read, with its
      failure flag.

    The loop counter [int i] is compared with [nums.size()] and incremented
    as in the source; the results about [twoSum] are stated for vectors of at
    most [INT_MAX] elements, the range in which the counter does not
    overflow.  The conversion of the result to JSON is not part of this
    development. *)

From Stdlib Require Import ZArith Lia Ascii.
From stdpp Require Import gmap list.

Local Open Scope Z_scope.

(** ** The type [int] *)

Module CInt.

Definition INT_MIN : Z := -2147483648.
Definition INT_MAX : Z := 2147483647.

Definition in_range (z : Z) : Prop := INT_MIN <= z <= INT_MAX.

(** Reduction of a mathematical integer into the 32-bit signed range. *)
Definition wrap (z : Z) : Z := (z + 2147483648) mod 4294967296 - 2147483648.

Definition add (a b : Z) : Z := wrap (a + b).
Definition sub (a b : Z) : Z := wrap (a - b).

(** Conversion of an [int] to [size_t] (64-bit unsigned), as done by the
    comparison [i < nums.size()] and by [nums[i]]. *)
Definition to_size_t (z : Z) : Z := z mod 18446744073709551616.

End CInt.

(** ** [twoSum]

    The function is a single [for] loop.  Its state is the vector [nums]
    (received by reference), the local table [numMap] and the counter [i];
    once a [return] is executed the state holds the vector and the returned
    vector of indices. *)

Inductive state : Type :=
| Scanning (nums : list Z) (numMap : gmap Z Z) (i : Z)
| Returned (nums : list Z) (result : list Z).

(** One evaluation of the loop condition followed, when it holds, by the loop
    body and the increment [++i]. *)
Definition loop_iteration (target : Z) (st : state) : state :=
  match st with
  | Returned _ _ => st
  | Scanning nums numMap i =>
      if CInt.to_size_t i <? Z.of_nat (length nums) then
        (* the loop condition makes the access nums[i] in range *)
        let x := nums !!! Z.to_nat (CInt.to_size_t i) in
        let complement := CInt.sub target x in
        match numMap !! complement with
        | Some k => Returned nums [k; i]
        | None => Scanning nums (<[x := i]> numMap) (CInt.wrap (i + 1))
        end
      else Returned nums []
  end.

Fixpoint run (fuel : nat) (target : Z) (st : state) : state :=
  match fuel with
  | O => st
  | S fuel' => run fuel' target (loop_iteration target st)
  end.

(** The state when [twoSum] is left: [length nums] iterations and one last
    evaluation of the loop condition. *)
Definition twoSum_exec (nums : list Z) (target : Z) : state :=
  run (S (length nums)) target (Scanning nums ∅ 0).

(** The returned vector; [None] if the loop is still running. *)
Definition twoSum (nums : list Z) (target : Z) : option (list Z) :=
  match twoSum_exec nums target with
  | Returned _ result => Some result
  | Scanning _ _ _ => None
  end.

(** The caller's vector after the call. *)
Definition nums_after_twoSum (nums : list Z) (target : Z) : option (list Z) :=
  match twoSum_exec nums target with
  | Returned nums' _ => Some nums'
  | Scanning _ _ _ => None
  end.

(** ** What the loop computes *)

(** The table built by the first [k] iterations when none of them returns:
    iteration [j] executes [numMap[nums[j]] = j]. *)
Fixpoint table_after (nums : list Z) (k : nat) : gmap Z Z :=
  match k with
  | O => ∅
  | S j =>
      match nums !! j with
      | Some x => <[x := Z.of_nat j]> (table_after nums j)
      | None => table_after nums j
      end
  end.

(** Index [n] holds the last occurrence of [v] among the first [k] elements. *)
Definition last_occurrence (nums : list Z) (k : nat) (v : Z) (n : nat) : Prop :=
  (n < k)%nat ∧ nums !! n = Some v ∧
  ∀ n', (n < n' < k)%nat → nums !! n' ≠ Some v.

(** Index [n] holds the first occurrence of [v] among the first [k] elements. *)
Definition first_occurrence (nums : list Z) (k : nat) (v : Z) (n : nat) : Prop :=
  (n < k)%nat ∧ nums !! n = Some v ∧
  ∀ n', (n' < n)%nat → nums !! n' ≠ Some v.

(** No iteration before [k] finds its complement in the table. *)
Definition no_hit_before (nums : list Z) (target : Z) (k : nat) : Prop :=
  ∀ j x, (j < k)%nat → nums !! j = Some x →
    table_after nums j !! CInt.sub target x = None.

(** The vector held by a state. *)
Definition vector_of (st : state) : list Z :=
  match st with
  | Scanning nums _ _ => nums
  | Returned nums _ => nums
  end.

(** The key set of [numMap] is the set of the first [k] values, and every
    key is mapped to an index selected by [occurrence]. *)
Definition table_describes
    (occurrence : list Z → nat → Z → nat → Prop)
    (nums : list Z) (k : nat) (numMap : gmap Z Z) : Prop :=
  dom numMap = list_to_set (take k nums) ∧
  ∀ v z, numMap !! v = Some z → ∃ n, z = Z.of_nat n ∧ occurrence nums k v n.

(** The table invariant with first occurrences: whenever the loop is about
    to examine index [k], the table describes the first [k] values and maps
    each of them to its first occurrence. *)
Definition first_occurrence_invariant (nums : list Z) (target : Z) (k : nat) : Prop :=
  ∀ numMap i,
    run k target (Scanning nums ∅ 0) = Scanning nums numMap i →
    table_describes first_occurrence nums k numMap.

(** The first returned index is the smallest index below the second one that
    holds the complement of the second element. *)
Definition first_index_is_smallest (nums : list Z) (target : Z) : Prop :=
  ∀ zi zj y,
    twoSum nums target = Some [zi; zj] →
    nums !! Z.to_nat zj = Some y →
    first_occurrence nums (Z.to_nat zj) (CInt.sub target y) (Z.to_nat zi).

(** ** Standard input

    [std::cin] is modelled by the characters not yet read and a flag that
    stands for [failbit]; the end of the list is the end of the file.  An
    operation on a stream whose flag is set does nothing; an operation that
    needs a character at the end of the file sets the flag. *)

Record istream : Type := { buffer : list ascii; failbit : bool }.

Definition newline : ascii := "010"%char.

(** [isspace] and [isdigit] of the C locale. *)
Definition isspace (c : ascii) : bool :=
  let n := nat_of_ascii c in
  (n =? 32)%nat || ((9 <=? n)%nat && (n <=? 13)%nat).

Definition isdigit (c : ascii) : bool :=
  let n := nat_of_ascii c in (48 <=? n)%nat && (n <=? 57)%nat.

Definition digit_value (c : ascii) : Z := Z.of_nat (nat_of_ascii c) - 48.

Fixpoint skip_ws (buf : list ascii) : list ascii :=
  match buf with
  | c :: rest => if isspace c then skip_ws rest else buf
  | [] => []
  end.

Fixpoint read_digits (acc : Z) (buf : list ascii) : Z * list ascii :=
  match buf with
  | c :: rest =>
      if isdigit c then read_digits (10 * acc + digit_value c) rest
      else (acc, buf)
  | [] => (acc, [])
  end.

(** The digits of [cin >> num], after the sign: when no digit is found [num]
    becomes 0, a value that does not fit [int] is clamped, and both set the
    flag. *)
Definition convert_digits (negative : bool) (digits : list ascii) : istream * Z :=
  match digits with
  | d :: _ =>
      if isdigit d then
        let '(magnitude, rest) := read_digits 0 digits in
        let v := if negative then - magnitude else magnitude in
        if CInt.INT_MAX <? v
        then ({| buffer := rest; failbit := true |}, CInt.INT_MAX)
        else if v <? CInt.INT_MIN
        then ({| buffer := rest; failbit := true |}, CInt.INT_MIN)
        else ({| buffer := rest; failbit := false |}, v)
      else ({| buffer := digits; failbit := true |}, 0)
  | [] => ({| buffer := []; failbit := true |}, 0)
  end.

(** [cin >> num]: skips white space, then reads an optional sign and decimal
    digits.  At the end of the file the flag is set and [num] keeps its
    value. *)
Definition extract_int (cin : istream) (num : Z) : istream * Z :=
  if failbit cin then (cin, num) else
  match skip_ws (buffer cin) with
  | [] => ({| buffer := []; failbit := true |}, num)
  | c :: rest =>
      let negative := Ascii.eqb c "-" in
      if negative || Ascii.eqb c "+" then convert_digits negative rest
      else convert_digits negative (c :: rest)
  end.

(** [cin.get(c)]: reads one character; at the end of the file [c] keeps its
    value and the flag is set. *)
Definition get (cin : istream) (c : ascii) : istream * ascii :=
  if failbit cin then (cin, c) else
  match buffer cin with
  | x :: rest => ({| buffer := rest; failbit := false |}, x)
  | [] => ({| buffer := []; failbit := true |}, c)
  end.

(** ** [main]

    The reading loop of [main].  The locals [num] and [c] are not
    initialised by the program: the values they hold at entry are the
    parameters [num0] and [c0].  The result is the vector [nums] and the
    target.  [None] means that [fuel] iterations were not enough. *)
Fixpoint read_loop (fuel : nat) (cin : istream) (nums : list Z) (num : Z)
    (c : ascii) : option (list Z * Z) :=
  match fuel with
  | O => None
  | S fuel' =>
      let '(cin1, num1) := extract_int cin num in
      if failbit cin1 then Some (nums, num1)
      else
        let '(cin2, c2) := get cin1 c in
        if Ascii.eqb c2 newline then Some (nums, num1)
        else read_loop fuel' cin2 (nums ++ [num1]) num1 c2
  end.

Definition read_input (num0 : Z) (c0 : ascii) (stdin : list ascii)
    : option (list Z * Z) :=
  read_loop (S (length stdin)) {| buffer := stdin; failbit := false |} [] num0 c0.

(** The vector that [main] converts to JSON and prints. *)
Definition main (num0 : Z) (c0 : ascii) (stdin : list ascii) : option (list Z) :=
  match read_input num0 c0 stdin with
  | Some (nums, target) => twoSum nums target
  | None => None
  end.

(** ** Well-formed input *)

(** The value of a decimal numeral, by position. *)
Fixpoint decimal_value (ds : list ascii) : Z :=
  match ds with
  | [] => 0
  | d :: rest => digit_value d * 10 ^ Z.of_nat (length rest) + decimal_value rest
  end.

Definition numeral (ds : list ascii) : Prop :=
  ds ≠ [] ∧ Forall (λ c, isdigit c = true) ds.

Definition whitespace (ws : list ascii) : Prop :=
  Forall (λ c, isspace c = true) ws.

(** The text [tok] is an integer token that denotes [v]. *)
Inductive int_token : list ascii → Z → Prop :=
| token_unsigned ds : numeral ds → int_token ds (decimal_value ds)
| token_plus ds : numeral ds → int_token ("+"%char :: ds) (decimal_value ds)
| token_minus ds : numeral ds → int_token ("-"%char :: ds) (- decimal_value ds).

(** White space between two integers of one line: it does not start with a
    newline. *)
Definition separator (sep : list ascii) : Prop :=
  ∃ c ws, sep = c :: ws ∧ isspace c = true ∧ c ≠ newline ∧ whitespace ws.

(** An integer of the input followed by its separator. *)
Record item : Type := { text : list ascii; value : Z; sep : list ascii }.

Definition well_formed (it : item) : Prop :=
  int_token (text it) (value it) ∧ CInt.in_range (value it) ∧ separator (sep it).

Fixpoint render (items : list item) : list ascii :=
  match items with
  | [] => []
  | it :: rest => text it ++ sep it ++ render rest
  end.

(** The buffer is empty or starts with a character that is not a digit. *)
Definition ends_numeral (rest : list ascii) : Prop :=
  ∀ c rest', rest = c :: rest' → isdigit c = false.

(** ** Runs of the model *)

Example twoSum_overwrites : twoSum [1; 1; 5] 6 = Some [1; 2].
Proof. vm_compute. reflexivity. Qed.

(** A pair found through wrap-around of [target - nums[i]]. *)
Example twoSum_wraps : twoSum [-2147483648; -1] 2147483647 = Some [0; 1].
Proof. vm_compute. reflexivity. Qed.

(** ** Arithmetic of [int] *)

Section int_arith.
Import CInt.

Lemma wrap_in_range z : in_range z → wrap z = z.
Proof. unfold in_range, INT_MIN, INT_MAX, wrap. intros H. rewrite Z.mod_small; lia. Qed.

Lemma wrap_range z : in_range (wrap z).
Proof.
  unfold in_range, INT_MIN, INT_MAX, wrap.
  pose proof (Z.mod_pos_bound (z + 2147483648) 4294967296). lia.
Qed.

Lemma wrap_wrap_plus a b : wrap (wrap a + b) = wrap (a + b).
Proof.
  unfold wrap.
  replace ((a + 2147483648) mod 4294967296 - 2147483648 + b + 2147483648)
    with ((a + 2147483648) mod 4294967296 + b) by lia.
  rewrite Zplus_mod_idemp_l. do 2 f_equal. lia.
Qed.

(** [target - y + y] gives back [target], overflow or not. *)
Lemma add_sub_cancel t y : in_range t → add (sub t y) y = t.
Proof.
  intros Ht. unfold add, sub. rewrite wrap_wrap_plus.
  replace (t - y + y) with t by lia. by apply wrap_in_range.
Qed.

(** If [x + y == target] in [int] arithmetic then [target - y == x]. *)
Lemma sub_of_add x y t : in_range x → add x y = t → sub t y = x.
Proof.
  intros Hx <-. unfold add, sub.
  replace (wrap (x + y) - y) with (wrap (x + y) + (- y)) by lia.
  rewrite wrap_wrap_plus. replace (x + y + - y) with x by lia.
  by apply wrap_in_range.
Qed.

Lemma to_size_t_index (n : nat) :
  Z.of_nat n <= INT_MAX → to_size_t (Z.of_nat n) = Z.of_nat n.
Proof. unfold INT_MAX, to_size_t. intros H. rewrite Z.mod_small; lia. Qed.

End int_arith.

(** ** The table *)

Lemma table_after_lookup (nums : list Z) k v z :
  (k ≤ length nums)%nat →
  table_after nums k !! v = Some z ↔
  ∃ n, z = Z.of_nat n ∧ last_occurrence nums k v n.
Proof.
  unfold last_occurrence. induction k as [|k IH]; intros Hk; simpl.
  - rewrite lookup_empty. split; [done|]. intros (n & _ & ? & _). lia.
  - destruct (lookup_lt_is_Some_2 nums k) as [x Hx]; [lia|]. rewrite Hx.
    destruct (decide (x = v)) as [->|Hne].
    + rewrite lookup_insert_eq. split.
      * intros [= <-]. exists k. repeat split; [lia|done|]. intros n' ?. lia.
      * intros (n & -> & Hlt & Hn & Hlast).
        destruct (decide (n = k)) as [->|Hnk]; [done|].
        exfalso. apply (Hlast k); [lia|done].
    + rewrite lookup_insert_ne by done. rewrite IH by lia. split.
      * intros (n & -> & Hlt & Hn & Hlast). exists n.
        repeat split; [lia|done|]. intros n' Hn'.
        destruct (decide (n' = k)) as [->|]; [congruence|]. apply Hlast. lia.
      * intros (n & -> & Hlt & Hn & Hlast). exists n.
        assert (n ≠ k) by congruence.
        repeat split; [lia|done|]. intros n' Hn'. apply Hlast. lia.
Qed.

Lemma table_after_dom (nums : list Z) k :
  (k ≤ length nums)%nat → dom (table_after nums k) = list_to_set (take k nums).
Proof.
  induction k as [|k IH]; intros Hk; simpl.
  - by rewrite dom_empty_L.
  - destruct (lookup_lt_is_Some_2 nums k) as [x Hx]; [lia|]. rewrite Hx.
    rewrite dom_insert_L, IH by lia.
    rewrite (take_S_r _ _ _ Hx), list_to_set_app_L. simpl.
    by rewrite (right_id_L ∅ (∪)), (comm_L (∪)).
Qed.

(** ** Iterations *)

Lemma run_snoc target fuel st :
  run (S fuel) target st = loop_iteration target (run fuel target st).
Proof. revert st. induction fuel as [|fuel IH]; intros st; [done|]. simpl in *. by rewrite IH. Qed.

Lemma run_Returned target fuel ns r : run fuel target (Returned ns r) = Returned ns r.
Proof. induction fuel; simpl; auto. Qed.

Lemma run_plus target a b st : run (a + b) target st = run b target (run a target st).
Proof. revert st. induction a as [|a IH]; intros st; simpl; auto. Qed.

Section loop.
Variable nums : list Z.
Variable target : Z.
Hypothesis size_fits_int : Z.of_nat (length nums) <= CInt.INT_MAX.

Lemma iteration_in_range (j : nat) x numMap :
  nums !! j = Some x →
  loop_iteration target (Scanning nums numMap (Z.of_nat j)) =
  match numMap !! CInt.sub target x with
  | Some k => Returned nums [k; Z.of_nat j]
  | None => Scanning nums (<[x := Z.of_nat j]> numMap) (Z.of_nat (S j))
  end.
Proof.
  intros Hx. pose proof (lookup_lt_Some _ _ _ Hx) as Hj. simpl.
  rewrite to_size_t_index by lia.
  destruct (Z.ltb_spec (Z.of_nat j) (Z.of_nat (length nums))) as [_|?]; [|lia].
  rewrite Nat2Z.id, (list_lookup_total_correct _ _ _ Hx).
  destruct (numMap !! CInt.sub target x); [done|].
  f_equal. rewrite wrap_in_range; [lia|].
  unfold CInt.in_range, CInt.INT_MIN, CInt.INT_MAX in *. lia.
Qed.

Lemma iteration_at_end numMap :
  loop_iteration target (Scanning nums numMap (Z.of_nat (length nums))) =
  Returned nums [].
Proof.
  simpl. rewrite to_size_t_index by lia.
  by rewrite Z.ltb_irrefl.
Qed.

(** While no complement is found the loop is at index [k] with the table
    of the first [k] elements. *)
Lemma run_no_hit k :
  (k ≤ length nums)%nat → no_hit_before nums target k →
  run k target (Scanning nums ∅ 0) =
  Scanning nums (table_after nums k) (Z.of_nat k).
Proof.
  induction k as [|k IH]; intros Hk Hno; [done|].
  rewrite run_snoc, IH; [|lia|intros j x ? ?; apply Hno; [lia|done]].
  destruct (lookup_lt_is_Some_2 nums k) as [x Hx]; [lia|].
  rewrite (iteration_in_range _ _ _ Hx), (Hno k x); [|lia|done].
  simpl. by rewrite Hx.
Qed.

(** The first iteration that finds its complement returns. *)
Lemma run_hit j x z fuel :
  no_hit_before nums target j → nums !! j = Some x →
  table_after nums j !! CInt.sub target x = Some z →
  (j < fuel)%nat →
  run fuel target (Scanning nums ∅ 0) = Returned nums [z; Z.of_nat j].
Proof.
  intros Hno Hx Hz Hfuel. pose proof (lookup_lt_Some _ _ _ Hx).
  replace fuel with (S j + (fuel - S j))%nat by lia.
  rewrite run_plus, run_snoc, run_no_hit by (done || lia).
  rewrite (iteration_in_range _ _ _ Hx), Hz. apply run_Returned.
Qed.

(** Without any hit the loop ends and the empty vector is returned. *)
Lemma run_exhausted fuel :
  no_hit_before nums target (length nums) → (length nums < fuel)%nat →
  run fuel target (Scanning nums ∅ 0) = Returned nums [].
Proof.
  intros Hno Hfuel.
  replace fuel with (S (length nums) + (fuel - S (length nums)))%nat by lia.
  rewrite run_plus, run_snoc, run_no_hit by (done || lia).
  rewrite iteration_at_end. apply run_Returned.
Qed.

(** Either nothing is found before [k], or there is a first hit. *)
Lemma first_hit_or_none k :
  no_hit_before nums target k ∨
  ∃ j x z, (j < k)%nat ∧ no_hit_before nums target j ∧ nums !! j = Some x ∧
           table_after nums j !! CInt.sub target x = Some z.
Proof.
  induction k as [|k [IH|IH]].
  - left. intros j x ?. lia.
  - destruct (nums !! k) as [x|] eqn:Hx.
    + destruct (table_after nums k !! CInt.sub target x) as [z|] eqn:Hz.
      * right. exists k, x, z. repeat split; [lia|done..].
      * left. intros j y Hj Hy.
        destruct (decide (j = k)) as [->|]; [congruence|]. apply IH; [lia|done].
    + left. intros j y Hj Hy.
      destruct (decide (j = k)) as [->|]; [congruence|]. apply IH; [lia|done].
  - right. destruct IH as (j & x & z & ? & ?). exists j, x, z. split; [lia|done].
Qed.

(** The two ways [twoSum] ends. *)
Lemma twoSum_exec_cases :
  (no_hit_before nums target (length nums) ∧
   twoSum_exec nums target = Returned nums []) ∨
  (∃ j x z, (j < length nums)%nat ∧ no_hit_before nums target j ∧
            nums !! j = Some x ∧
            table_after nums j !! CInt.sub target x = Some z ∧
            twoSum_exec nums target = Returned nums [z; Z.of_nat j]).
Proof.
  destruct (first_hit_or_none (length nums)) as [Hno|(j & x & z & Hj & Hno & Hx & Hz)].
  - left. split; [done|]. apply run_exhausted; [done|lia].
  - right. exists j, x, z. repeat split; try done.
    apply (run_hit j x z); [done..|lia].
Qed.

(** More fuel than [length nums] does not change the outcome. *)
Lemma twoSum_exec_stable fuel :
  (length nums < fuel)%nat →
  run fuel target (Scanning nums ∅ 0) = twoSum_exec nums target.
Proof.
  intros Hfuel.
  destruct twoSum_exec_cases as [[Hno ->]|(j & x & z & Hj & Hno & Hx & Hz & ->)].
  - by apply run_exhausted.
  - apply (run_hit j x z); [done..|lia].
Qed.

End loop.

(** ** Properties of [twoSum] *)

(** An earlier element that completes the pair is a key of the table. *)
Lemma pair_is_hit (nums : list Z) (target : Z) (i j : nat) x y :
  (i < j)%nat → nums !! i = Some x → nums !! j = Some y →
  CInt.in_range x → CInt.add x y = target →
  is_Some (table_after nums j !! CInt.sub target y).
Proof.
  intros Hij Hi Hj Hx Hsum. pose proof (lookup_lt_Some _ _ _ Hj).
  rewrite (sub_of_add x y target Hx Hsum).
  apply elem_of_dom. rewrite table_after_dom by lia.
  apply elem_of_list_to_set, elem_of_take. eauto.
Qed.

Lemma no_hit_no_pair (nums : list Z) (target : Z) k (i j : nat) x y :
  no_hit_before nums target k →
  (i < j < k)%nat → nums !! i = Some x → nums !! j = Some y →
  CInt.in_range x → CInt.add x y ≠ target.
Proof.
  intros Hno [Hij Hjk] Hi Hj Hx Hsum.
  destruct (pair_is_hit nums target i j x y Hij Hi Hj Hx Hsum) as [z Hz].
  rewrite (Hno j y Hjk Hj) in Hz. discriminate.
Qed.

Section pairs.
Variable nums : list Z.
Variable target : Z.
Hypothesis size_fits_int : Z.of_nat (length nums) <= CInt.INT_MAX.

(** What is known when a pair of indices is returned. *)
Lemma twoSum_Some_pair zi zj :
  twoSum nums target = Some [zi; zj] →
  ∃ (i j : nat) y,
    zi = Z.of_nat i ∧ zj = Z.of_nat j ∧ nums !! j = Some y ∧
    no_hit_before nums target j ∧
    last_occurrence nums j (CInt.sub target y) i.
Proof.
  unfold twoSum. intros Hret.
  destruct (twoSum_exec_cases nums target size_fits_int)
    as [[_ Hex]|(j & y & z & Hj & Hno & Hy & Hz & Hex)];
    rewrite Hex in Hret; [discriminate|].
  injection Hret as <- <-.
  apply table_after_lookup in Hz as (i & -> & Hlast); [|lia].
  by exists i, j, y.
Qed.

End pairs.

Lemma loop_iteration_vector target st :
  vector_of (loop_iteration target st) = vector_of st.
Proof.
  destruct st as [nums numMap i|nums r]; simpl; [|done].
  destruct (_ <? _); [|done]. by destruct (numMap !! _).
Qed.

Lemma run_vector fuel target st : vector_of (run fuel target st) = vector_of st.
Proof.
  revert st. induction fuel as [|fuel IH]; intros st; simpl; [done|].
  by rewrite IH, loop_iteration_vector.
Qed.

(** C1 (soundness).  For every vector [nums] (of at most [INT_MAX] elements,
    the range of the counter [i]) and every [target], [twoSum] returns, and
    it returns either the empty vector or two indices [i < j < length nums]
    with [nums[i] + nums[j] == target].  The sum is the sum of [int]; it is
    also the exact sum whenever [target - nums[j]] does not overflow. *)
Theorem twoSum_sound (nums : list Z) (target : Z) :
  Z.of_nat (length nums) <= CInt.INT_MAX →
  CInt.in_range target →
  ∃ r, twoSum nums target = Some r ∧
    (r = [] ∨
     ∃ (i j : nat) (x y : Z),
       r = [Z.of_nat i; Z.of_nat j] ∧ (i < j < length nums)%nat ∧
       nums !! i = Some x ∧ nums !! j = Some y ∧
       CInt.add x y = target ∧
       (CInt.in_range (target - y) → x + y = target)).
Proof.
  intros Hsize Ht. unfold twoSum.
  destruct (twoSum_exec_cases nums target Hsize)
    as [[_ Hex]|(j & y & z & Hj & Hno & Hy & Hz & Hex)]; rewrite Hex.
  - exists []. by split; [|left].
  - apply table_after_lookup in Hz as (i & -> & Hi & Hx & _); [|lia..].
    eexists. split; [done|]. right. exists i, j, (CInt.sub target y), y.
    repeat split; [lia|done..| |].
    + by apply add_sub_cancel.
    + intros Hno_overflow. unfold CInt.sub. rewrite wrap_in_range by done. lia.
Qed.

Lemma twoSum_sound_witness :
  ∃ r, twoSum [2; 7; 11; 15] 9 = Some r ∧
    (r = [] ∨
     ∃ (i j : nat) (x y : Z),
       r = [Z.of_nat i; Z.of_nat j] ∧ (i < j < length [2; 7; 11; 15])%nat ∧
       [2; 7; 11; 15] !! i = Some x ∧ [2; 7; 11; 15] !! j = Some y ∧
       CInt.add x y = 9 ∧
       (CInt.in_range (9 - y) → x + y = 9)).
Proof.
  apply (twoSum_sound [2; 7; 11; 15] 9).
  - vm_compute. discriminate.
  - unfold CInt.in_range, CInt.INT_MIN, CInt.INT_MAX. lia.
Defined.

(** C2 (earliest second index).  If [twoSum] returns the indices [zi] and
    [zj] then no two elements at indices [i' < j'] with [j'] below [zj] have
    the sum [target]. *)
Theorem twoSum_earliest_second_index (nums : list Z) (target zi zj : Z)
    (i' j' : nat) (x' y' : Z) :
  Z.of_nat (length nums) <= CInt.INT_MAX →
  Forall CInt.in_range nums →
  twoSum nums target = Some [zi; zj] →
  (i' < j')%nat → Z.of_nat j' < zj →
  nums !! i' = Some x' → nums !! j' = Some y' →
  CInt.add x' y' ≠ target.
Proof.
  intros Hsize Hrange Hret Hij Hj Hx Hy.
  destruct (twoSum_Some_pair nums target Hsize zi zj Hret)
    as (i & j & y & -> & -> & _ & Hno & _).
  apply (no_hit_no_pair nums target j i' j'); [done|lia|done..|].
  rewrite Forall_lookup in Hrange. by apply (Hrange i').
Qed.

Lemma twoSum_earliest_second_index_witness : CInt.add 3 2 ≠ 6.
Proof.
  apply (twoSum_earliest_second_index [3; 2; 4] 6 1 2 0%nat 1%nat 3 2).
  - vm_compute. discriminate.
  - repeat constructor; vm_compute; discriminate.
  - vm_compute. reflexivity.
  - lia.
  - lia.
  - reflexivity.
  - reflexivity.
Defined.

(** C3 as stated does not hold: in [1; 1; 5] with target 6 the indices 1 and
    2 are returned although index 0 also holds the complement of 5. *)
Lemma first_index_not_smallest : ¬ first_index_is_smallest [1; 1; 5] 6.
Proof.
  intros H. destruct (H 1 2 5) as (_ & _ & Hfirst).
  - vm_compute. reflexivity.
  - reflexivity.
  - apply (Hfirst 0%nat); [simpl; lia|reflexivity].
Qed.

(** C3 (amended).  If [twoSum] returns the indices [zi] and [zj] then [zi]
    is the largest index below [zj] that holds [target - nums[zj]]: the
    table keeps the last occurrence of a value. *)
Theorem twoSum_first_index_last_occurrence (nums : list Z) (target zi zj : Z) :
  Z.of_nat (length nums) <= CInt.INT_MAX →
  twoSum nums target = Some [zi; zj] →
  ∃ (i j : nat) (y : Z),
    zi = Z.of_nat i ∧ zj = Z.of_nat j ∧ nums !! j = Some y ∧
    (i < j)%nat ∧ nums !! i = Some (CInt.sub target y) ∧
    ∀ k, (i < k < j)%nat → nums !! k ≠ Some (CInt.sub target y).
Proof.
  intros Hsize Hret.
  destruct (twoSum_Some_pair nums target Hsize zi zj Hret)
    as (i & j & y & -> & -> & Hy & _ & Hlast).
  by exists i, j, y.
Qed.

Lemma twoSum_first_index_last_occurrence_witness :
  ∃ (i j : nat) (y : Z),
    1 = Z.of_nat i ∧ 2 = Z.of_nat j ∧ [1; 1; 5] !! j = Some y ∧
    (i < j)%nat ∧ [1; 1; 5] !! i = Some (CInt.sub 6 y) ∧
    ∀ k, (i < k < j)%nat → [1; 1; 5] !! k ≠ Some (CInt.sub 6 y).
Proof.
  apply (twoSum_first_index_last_occurrence [1; 1; 5] 6 1 2).
  - vm_compute. discriminate.
  - vm_compute. reflexivity.
Defined.

(** C4 as stated does not hold: with [1; 1; 5] and target 100 the loop
    reaches index 2 with a table that maps the value 1 to index 1, which is
    not its first occurrence. *)
Lemma first_occurrence_invariant_fails :
  ¬ first_occurrence_invariant [1; 1; 5] 100 2.
Proof.
  intros H.
  destruct (H (<[1 := 1]> (<[1 := 0]> ∅)) 2) as [_ Hmap].
  - vm_compute. reflexivity.
  - destruct (Hmap 1 1) as (n & Hn & _ & _ & Hfirst).
    + vm_compute. reflexivity.
    + apply (Hfirst 0%nat); [lia|reflexivity].
Qed.

(** C4 (amended).  Whenever the loop is about to examine index [k], the
    vector is unchanged, the counter is [k], the key set of the table is the
    set of the values [nums[0..k-1]], and every key is mapped to the index
    of its last occurrence in [nums[0..k-1]]. *)
Theorem table_invariant (nums : list Z) (target : Z) (k : nat)
    (nums' : list Z) (numMap : gmap Z Z) (i : Z) :
  Z.of_nat (length nums) <= CInt.INT_MAX →
  run k target (Scanning nums ∅ 0) = Scanning nums' numMap i →
  nums' = nums ∧ i = Z.of_nat k ∧ (k ≤ length nums)%nat ∧
  table_describes last_occurrence nums k numMap.
Proof.
  intros Hsize Hrun.
  assert (k ≤ length nums)%nat as Hk.
  { destruct (decide (k ≤ length nums)%nat) as [|Hgt]; [done|]. exfalso.
    destruct (twoSum_exec_cases nums target Hsize)
      as [[Hno _]|(j & y & z & Hj & Hno & Hy & Hz & _)].
    - rewrite (run_exhausted nums target Hsize k Hno) in Hrun by lia. discriminate.
    - rewrite (run_hit nums target Hsize j y z k Hno Hy Hz) in Hrun by lia.
      discriminate. }
  destruct (first_hit_or_none nums target k)
    as [Hno|(j & y & z & Hj & Hno & Hy & Hz)].
  - rewrite (run_no_hit nums target Hsize k Hk Hno) in Hrun.
    injection Hrun as <- <- <-. repeat split; [done| |].
    + by apply table_after_dom.
    + intros v z Hz. by apply (table_after_lookup nums k v z Hk).
  - rewrite (run_hit nums target Hsize j y z k Hno Hy Hz Hj) in Hrun. discriminate.
Qed.

Lemma table_invariant_witness :
  [1; 1; 5] = [1; 1; 5] ∧ 2 = Z.of_nat 2 ∧ (2 ≤ length [1; 1; 5])%nat ∧
  table_describes last_occurrence [1; 1; 5] 2 (<[1 := 1]> (<[1 := 0]> ∅)).
Proof.
  apply (table_invariant [1; 1; 5] 100 2 [1; 1; 5] (<[1 := 1]> (<[1 := 0]> ∅)) 2).
  - vm_compute. discriminate.
  - vm_compute. reflexivity.
Defined.

(** C5 (completeness).  If two elements at indices [i < j] have the sum
    [target] then [twoSum] returns two indices; the empty vector is returned
    only when no such pair exists. *)
Theorem twoSum_complete (nums : list Z) (target : Z) (i j : nat) (x y : Z) :
  Z.of_nat (length nums) <= CInt.INT_MAX →
  Forall CInt.in_range nums →
  (i < j)%nat → nums !! i = Some x → nums !! j = Some y →
  CInt.add x y = target →
  ∃ zi zj, twoSum nums target = Some [zi; zj].
Proof.
  intros Hsize Hrange Hij Hx Hy Hsum. unfold twoSum.
  destruct (twoSum_exec_cases nums target Hsize)
    as [[Hno _]|(j' & y' & z & _ & _ & _ & _ & Hex)].
  - exfalso. pose proof (lookup_lt_Some _ _ _ Hy).
    apply (no_hit_no_pair nums target _ i j x y Hno); [lia|done..| |done].
    rewrite Forall_lookup in Hrange. by apply (Hrange i).
  - rewrite Hex. by eexists _, _.
Qed.

Lemma twoSum_complete_witness : ∃ zi zj, twoSum [3; 2; 4] 6 = Some [zi; zj].
Proof.
  apply (twoSum_complete [3; 2; 4] 6 1%nat 2%nat 2 4).
  - vm_compute. discriminate.
  - repeat constructor; vm_compute; discriminate.
  - lia.
  - reflexivity.
  - reflexivity.
  - reflexivity.
Defined.

(** C7 (degenerate inputs).  On the empty vector and on a vector of one
    element [twoSum] returns the empty vector, whatever the target. *)
Theorem twoSum_degenerate :
  (∀ target, twoSum [] target = Some []) ∧
  (∀ x target, twoSum [x] target = Some []).
Proof.
  split; [reflexivity|]. intros x target.
  unfold twoSum, twoSum_exec. simpl run.
  change (CInt.to_size_t 0 <? Z.of_nat (length [x])) with true. cbv iota.
  change ([x] !!! Z.to_nat (CInt.to_size_t 0)) with x.
  rewrite lookup_empty. reflexivity.
Qed.

(** C8 (concrete scenarios). *)
Theorem twoSum_scenarios :
  twoSum [2; 7; 11; 15] 9 = Some [0; 1] ∧
  twoSum [3; 2; 4] 6 = Some [1; 2] ∧
  twoSum [3; 3] 6 = Some [0; 1] ∧
  twoSum [1; 2; 3] 100 = Some [].
Proof. repeat split; vm_compute; reflexivity. Qed.

(** C9 (frame).  [twoSum] receives [nums] by reference and only reads it:
    at every point of the execution, and when the function is left, the
    vector is the one received. *)
Theorem twoSum_preserves_nums (nums : list Z) (target : Z) :
  Z.of_nat (length nums) <= CInt.INT_MAX →
  (∀ fuel, vector_of (run fuel target (Scanning nums ∅ 0)) = nums) ∧
  nums_after_twoSum nums target = Some nums.
Proof.
  intros Hsize. split.
  - intros fuel. by rewrite run_vector.
  - unfold nums_after_twoSum.
    by destruct (twoSum_exec_cases nums target Hsize)
      as [[_ ->]|(j & y & z & _ & _ & _ & _ & ->)].
Qed.

Lemma twoSum_preserves_nums_witness :
  (∀ fuel, vector_of (run fuel 6 (Scanning [3; 2; 4] ∅ 0)) = [3; 2; 4]) ∧
  nums_after_twoSum [3; 2; 4] 6 = Some [3; 2; 4].
Proof.
  apply (twoSum_preserves_nums [3; 2; 4] 6).
  vm_compute. discriminate.
Defined.

(** ** Reading integers *)

Lemma isdigit_spec c :
  isdigit c = true ↔ (48 ≤ nat_of_ascii c ≤ 57)%nat.
Proof. unfold isdigit. rewrite andb_true_iff, !Nat.leb_le. done. Qed.

Lemma isspace_spec c :
  isspace c = true ↔
  (nat_of_ascii c = 32 ∨ 9 ≤ nat_of_ascii c ≤ 13)%nat.
Proof.
  unfold isspace. rewrite orb_true_iff, andb_true_iff, Nat.eqb_eq, !Nat.leb_le. done.
Qed.

Lemma isdigit_not_space c : isdigit c = true → isspace c = false.
Proof.
  rewrite isdigit_spec. intros Hd. apply not_true_is_false.
  rewrite isspace_spec. lia.
Qed.

Lemma isspace_not_digit c : isspace c = true → isdigit c = false.
Proof.
  rewrite isspace_spec. intros Hs. apply not_true_is_false.
  rewrite isdigit_spec. lia.
Qed.

Lemma isdigit_not_sign c :
  isdigit c = true → Ascii.eqb c "-" = false ∧ Ascii.eqb c "+" = false.
Proof.
  rewrite isdigit_spec. intros Hd.
  split; apply Ascii.eqb_neq; intros ->; vm_compute in Hd; lia.
Qed.

Lemma skip_ws_app ws c rest :
  whitespace ws → isspace c = false → skip_ws (ws ++ c :: rest) = c :: rest.
Proof.
  intros Hws Hc. induction Hws as [|w ws Hw _ IH]; simpl.
  - by rewrite Hc.
  - by rewrite Hw.
Qed.

Lemma skip_ws_all ws : whitespace ws → skip_ws ws = [].
Proof. intros Hws. induction Hws as [|w ws Hw _ IH]; simpl; [done|]. by rewrite Hw. Qed.

Lemma read_digits_app ds rest acc :
  Forall (λ c, isdigit c = true) ds → ends_numeral rest →
  read_digits acc (ds ++ rest) =
  (acc * 10 ^ Z.of_nat (length ds) + decimal_value ds, rest).
Proof.
  intros Hds Hrest. revert acc.
  induction Hds as [|d ds Hd _ IH]; intros acc.
  - simpl. destruct rest as [|c rest'].
    + simpl. f_equal. lia.
    + simpl. rewrite (Hrest c rest' eq_refl). f_equal. lia.
  - cbn [app read_digits decimal_value length]. rewrite Hd, IH.
    f_equal. rewrite Nat2Z.inj_succ, Z.pow_succ_r by lia. lia.
Qed.

Lemma numeral_inv ds :
  numeral ds →
  ∃ d ds', ds = d :: ds' ∧ isdigit d = true ∧ Forall (λ c, isdigit c = true) ds.
Proof.
  intros [Hne Hds]. destruct ds as [|d ds']; [done|].
  exists d, ds'. repeat split; [|done]. by inversion Hds.
Qed.

Lemma convert_digits_numeral ds rest (negative : bool) :
  numeral ds → ends_numeral rest →
  CInt.in_range (if negative then - decimal_value ds else decimal_value ds) →
  convert_digits negative (ds ++ rest) =
  ({| buffer := rest; failbit := false |},
   if negative then - decimal_value ds else decimal_value ds).
Proof.
  intros Hnum Hrest [Hlo Hhi].
  destruct (numeral_inv ds Hnum) as (d & ds' & Heq & Hd & Hds).
  unfold convert_digits. rewrite read_digits_app by done.
  rewrite Heq at 1. cbn [app]. rewrite Hd.
  replace (0 * 10 ^ Z.of_nat (length ds) + decimal_value ds)
    with (decimal_value ds) by lia.
  set (v := if negative then _ else _) in *.
  destruct (Z.ltb_spec CInt.INT_MAX v); [lia|].
  destruct (Z.ltb_spec v CInt.INT_MIN); [lia|done].
Qed.

(** [cin >> num] on a stream that starts with white space and an integer
    token: the token is consumed and its value is stored. *)
Lemma extract_int_token ws tok v rest num :
  whitespace ws → int_token tok v → CInt.in_range v → ends_numeral rest →
  extract_int {| buffer := ws ++ tok ++ rest; failbit := false |} num =
  ({| buffer := rest; failbit := false |}, v).
Proof.
  intros Hws Htok Hv Hrest. unfold extract_int. cbn [failbit buffer].
  destruct Htok as [ds Hnum|ds Hnum|ds Hnum].
  - destruct (numeral_inv ds Hnum) as (d & ds' & Heq & Hd & _).
    rewrite Heq at 1. cbn [app].
    rewrite skip_ws_app by auto using isdigit_not_space.
    destruct (isdigit_not_sign d Hd) as [-> ->]. cbn [orb].
    change (d :: ds' ++ rest) with ((d :: ds') ++ rest). rewrite <- Heq.
    by apply (convert_digits_numeral ds rest false).
  - cbn [app]. rewrite skip_ws_app by (done || reflexivity).
    change (Ascii.eqb "+" "-") with false. change (Ascii.eqb "+" "+") with true.
    cbn [orb]. by apply (convert_digits_numeral ds rest false).
  - cbn [app]. rewrite skip_ws_app by (done || reflexivity).
    change (Ascii.eqb "-" "-") with true.
    cbn [orb]. by apply (convert_digits_numeral ds rest true).
Qed.

(** ** The reading loop of [main] *)

Lemma separator_ends_numeral s rest : separator s → ends_numeral (s ++ rest).
Proof.
  intros (c & ws & -> & Hc & _) c' rest' [= <- _]. by apply isspace_not_digit.
Qed.

Lemma newline_ends_numeral rest : ends_numeral (newline :: rest).
Proof. by intros c rest' [= <- _]. Qed.

Lemma nil_ends_numeral : ends_numeral [].
Proof. by intros c rest' ?. Qed.

Lemma render_length items :
  Forall well_formed items → (length items ≤ length (render items))%nat.
Proof.
  induction 1 as [|it items (_ & _ & c & ws & Hsep & _) _ IH]; simpl; [done|].
  rewrite !length_app, Hsep. simpl. lia.
Qed.

(** One iteration on an integer followed by a separator: the integer is
    appended to the vector and the loop goes on behind the first character
    of the separator. *)
Lemma read_loop_item fuel ws it rest nums num c :
  whitespace ws → well_formed it →
  ∃ c' ws',
    c' ≠ newline ∧ whitespace ws' ∧
    read_loop (S fuel)
      {| buffer := ws ++ text it ++ sep it ++ rest; failbit := false |}
      nums num c =
    read_loop fuel {| buffer := ws' ++ rest; failbit := false |}
      (nums ++ [value it]) (value it) c'.
Proof.
  intros Hws (Htok & Hrange & Hsep).
  pose proof (separator_ends_numeral _ rest Hsep) as Hend.
  destruct Hsep as (c' & ws' & Heq & Hc' & Hnl & Hws').
  exists c', ws'. repeat split; [done..|].
  cbn [read_loop]. rewrite (extract_int_token ws _ (value it)) by done.
  rewrite Heq. cbn [failbit get buffer app].
  by apply Ascii.eqb_neq in Hnl as ->.
Qed.

(** A line of integers whose last one is followed by a newline. *)
Lemma read_loop_line items :
  Forall well_formed items →
  ∀ fuel ws tok t rest nums num c,
    whitespace ws → int_token tok t → CInt.in_range t →
    (length items < fuel)%nat →
    read_loop fuel
      {| buffer := ws ++ render items ++ tok ++ newline :: rest;
         failbit := false |} nums num c =
    Some (nums ++ (value <$> items), t).
Proof.
  induction 1 as [|it items Hit _ IH];
    intros fuel ws tok t rest nums num c Hws Htok Ht Hfuel;
    (destruct fuel as [|fuel]; [simpl in Hfuel; lia|]).
  - cbn [render app fmap list_fmap read_loop].
    rewrite (extract_int_token ws tok t) by auto using newline_ends_numeral.
    cbn [failbit get buffer]. rewrite Ascii.eqb_refl. by rewrite app_nil_r.
  - cbn [render]. rewrite <- !app_assoc.
    destruct (read_loop_item fuel ws it
                (render items ++ tok ++ newline :: rest) nums num c Hws Hit)
      as (c' & ws' & _ & Hws' & ->).
    rewrite (IH fuel ws' tok t rest) by (done || simpl in Hfuel; lia).
    by rewrite fmap_cons, <- app_assoc.
Qed.

(** Integers up to the end of the file, the last one followed by nothing or
    by white space that does not start with a newline. *)
Lemma read_loop_eof items :
  Forall well_formed items →
  ∀ fuel ws tok t trailing nums num c,
    whitespace ws → int_token tok t → CInt.in_range t →
    trailing = [] ∨ separator trailing →
    items ≠ [] ∨ c ≠ newline →
    (S (length items) < fuel)%nat →
    read_loop fuel
      {| buffer := ws ++ render items ++ tok ++ trailing; failbit := false |}
      nums num c =
    Some (nums ++ (value <$> items) ++ [t], t).
Proof.
  induction 1 as [|it items Hit _ IH];
    intros fuel ws tok t trailing nums num c Hws Htok Ht Htrail Hc Hfuel;
    (destruct fuel as [|fuel]; [simpl in Hfuel; lia|]).
  - destruct Hc as [|Hc]; [done|]. apply Ascii.eqb_neq in Hc.
    destruct fuel as [|fuel]; [simpl in Hfuel; lia|].
    cbn [render app fmap list_fmap].
    destruct Htrail as [->|Hsep].
    + cbn [read_loop].
      rewrite (extract_int_token ws tok t) by auto using nil_ends_numeral.
      cbn [failbit get buffer]. by rewrite Hc.
    + pose proof (separator_ends_numeral _ [] Hsep) as Hend.
      rewrite app_nil_r in Hend.
      destruct Hsep as (c' & ws' & -> & _ & Hnl & Hws').
      apply Ascii.eqb_neq in Hnl.
      cbn [read_loop].
      rewrite (extract_int_token ws tok t) by done.
      cbn [failbit get buffer]. rewrite Hnl.
      unfold extract_int. cbn [failbit buffer]. by rewrite skip_ws_all.
  - cbn [render]. rewrite <- !app_assoc.
    destruct (read_loop_item fuel ws it
                (render items ++ tok ++ trailing) nums num c Hws Hit)
      as (c' & ws' & Hc' & Hws' & ->).
    rewrite (IH fuel ws' tok t trailing) by (done || auto || simpl in Hfuel; lia).
    by rewrite fmap_cons, <- !app_assoc.
Qed.

(** The reading loop always ends: the model never runs out of fuel. *)
Lemma skip_ws_length buf : (length (skip_ws buf) ≤ length buf)%nat.
Proof.
  induction buf as [|c buf IH]; simpl; [done|].
  destruct (isspace c); simpl; lia.
Qed.

Lemma read_digits_length buf acc :
  (length (read_digits acc buf).2 ≤ length buf)%nat.
Proof.
  revert acc. induction buf as [|c buf IH]; intros acc; simpl; [done|].
  destruct (isdigit c); simpl; [|done]. specialize (IH (10 * acc + digit_value c)). lia.
Qed.

Lemma convert_digits_progress negative digits :
  failbit (convert_digits negative digits).1 = false →
  (length (buffer (convert_digits negative digits).1) < length digits)%nat.
Proof.
  unfold convert_digits. destruct digits as [|d digits]; [done|].
  destruct (isdigit d) eqn:Hd; [|done].
  pose proof (read_digits_length digits (10 * 0 + digit_value d)) as Hlen.
  cbn [read_digits]. rewrite Hd.
  destruct (read_digits _ digits) as [magnitude rest]. simpl in Hlen.
  repeat case_match; simpl; intros; try done; lia.
Qed.

Lemma extract_int_progress cin num :
  failbit cin = false →
  failbit (extract_int cin num).1 = false →
  (length (buffer (extract_int cin num).1) < length (buffer cin))%nat.
Proof.
  unfold extract_int. intros ->.
  pose proof (skip_ws_length (buffer cin)) as Hskip.
  destruct (skip_ws (buffer cin)) as [|c rest]; [done|]. simpl in Hskip.
  destruct (_ || _); intros Hok;
    apply convert_digits_progress in Hok; cbn [length] in Hok; lia.
Qed.

Lemma read_loop_total fuel cin nums num c :
  (if failbit cin then 0 < fuel else length (buffer cin) < fuel)%nat →
  is_Some (read_loop fuel cin nums num c).
Proof.
  revert cin nums num c. induction fuel as [|fuel IH]; intros cin nums num c Hfuel.
  - destruct (failbit cin); lia.
  - cbn [read_loop].
    destruct (failbit cin) eqn:Hfail.
    + unfold extract_int. rewrite Hfail, Hfail. eauto.
    + pose proof (extract_int_progress cin num Hfail) as Hprog.
      destruct (extract_int cin num) as [cin1 num1]. simpl in Hprog.
      destruct (failbit cin1) eqn:Hfail1; [eauto|].
      specialize (Hprog eq_refl). unfold get. rewrite Hfail1.
      destruct (buffer cin1) as [|x rest] eqn:Hbuf.
      * destruct (Ascii.eqb c newline); [eauto|]. apply IH. simpl. lia.
      * destruct (Ascii.eqb x newline); [eauto|]. apply IH. simpl in *. lia.
Qed.

Lemma read_input_total num0 c0 stdin : is_Some (read_input num0 c0 stdin).
Proof. apply read_loop_total. simpl. lia. Qed.

Lemma int_token_length tok v : int_token tok v → (0 < length tok)%nat.
Proof.
  intros [ds Hnum|ds Hnum|ds Hnum]; simpl; try lia.
  destruct (numeral_inv ds Hnum) as (d & ds' & -> & _). simpl. lia.
Qed.

(** C6 (input parsing).  The input starts with a line of integer tokens, each
    one that fits [int], separated by white space that does not start with a
    newline, and the last one immediately followed by a newline.  Then the
    integers before the last one form the vector, in order, and the last
    one is the target passed to [twoSum]; what follows the newline is not
    read, and the values first held by [num] and [c] do not matter. *)
Theorem main_reads_line (num0 : Z) (c0 : ascii) (ws : list ascii)
    (items : list item) (tok : list ascii) (target : Z) (rest : list ascii) :
  whitespace ws → Forall well_formed items →
  int_token tok target → CInt.in_range target →
  let stdin := ws ++ render items ++ tok ++ newline :: rest in
  read_input num0 c0 stdin = Some (value <$> items, target) ∧
  main num0 c0 stdin = twoSum (value <$> items) target.
Proof.
  intros Hws Hitems Htok Ht stdin.
  assert (read_input num0 c0 stdin = Some (value <$> items, target)) as Hread.
  { unfold read_input, stdin.
    rewrite (read_loop_line items Hitems _ ws tok target rest); [done..|].
    pose proof (render_length items Hitems). rewrite !length_app. lia. }
  split; [done|]. unfold main. by rewrite Hread.
Qed.

Lemma main_reads_line_witness :
  let stdin := ["2"; " "; "7"; " "; "9"; newline]%char in
  read_input 0 "a" stdin = Some ([2; 7], 9) ∧
  main 0 "a" stdin = twoSum [2; 7] 9.
Proof.
  assert (∀ d, isdigit d = true → numeral [d]) as Hnumeral.
  { intros d Hd. split; [discriminate|]. by repeat constructor. }
  assert (separator [" "%char]) as Hsep.
  { exists " "%char, []. repeat split; [discriminate|constructor]. }
  apply (main_reads_line 0 "a" []
           [ {| text := ["2"%char]; value := 2; sep := [" "%char] |};
             {| text := ["7"%char]; value := 7; sep := [" "%char] |} ]
           ["9"%char] 9 []).
  - constructor.
  - repeat (apply List.Forall_cons; [split; [|split]; cbn [text value sep]|]);
      [| |exact Hsep| | |exact Hsep|apply List.Forall_nil].
    + apply (token_unsigned ["2"%char]), Hnumeral. reflexivity.
    + split; vm_compute; discriminate.
    + apply (token_unsigned ["7"%char]), Hnumeral. reflexivity.
    + split; vm_compute; discriminate.
  - apply (token_unsigned ["9"%char]), Hnumeral. reflexivity.
  - split; vm_compute; discriminate.
Defined.

(** C10 (input that ends without a newline).  The input holds at least two
    integer tokens, each one that fits [int], separated by white space that
    does not start with a newline, and ends after the last token or after
    white space that does not start with a newline.  Then every integer,
    the last one included, is appended to the vector, and the last one is
    also the target passed to [twoSum]. *)
Theorem main_reads_to_eof (num0 : Z) (c0 : ascii) (ws : list ascii)
    (items : list item) (tok : list ascii) (last : Z) (trailing : list ascii) :
  whitespace ws → Forall well_formed items → items ≠ [] →
  int_token tok last → CInt.in_range last →
  trailing = [] ∨ separator trailing →
  let stdin := ws ++ render items ++ tok ++ trailing in
  read_input num0 c0 stdin = Some ((value <$> items) ++ [last], last) ∧
  main num0 c0 stdin = twoSum ((value <$> items) ++ [last]) last.
Proof.
  intros Hws Hitems Hne Htok Hlast Htrail stdin.
  assert (read_input num0 c0 stdin = Some ((value <$> items) ++ [last], last))
    as Hread.
  { unfold read_input, stdin.
    rewrite (read_loop_eof items Hitems _ ws tok last trailing);
      [done..|auto|].
    pose proof (render_length items Hitems).
    pose proof (int_token_length tok last Htok).
    rewrite !length_app. lia. }
  split; [done|]. unfold main. by rewrite Hread.
Qed.

Lemma main_reads_to_eof_witness :
  let stdin := ["0"; " "; "0"]%char in
  read_input 7 newline stdin = Some ([0; 0], 0) ∧
  main 7 newline stdin = twoSum [0; 0] 0.
Proof.
  assert (numeral ["0"%char]) as Hnumeral.
  { split; [discriminate|]. by repeat constructor. }
  apply (main_reads_to_eof 7 newline []
           [ {| text := ["0"%char]; value := 0; sep := [" "%char] |} ]
           ["0"%char] 0 []).
  - constructor.
  - apply List.Forall_cons; [split; [|split]; cbn [text value sep]|apply List.Forall_nil].
    + apply (token_unsigned ["0"%char]), Hnumeral.
    + split; vm_compute; discriminate.
    + exists " "%char, []. repeat split; [discriminate|constructor].
  - discriminate.
  - apply (token_unsigned ["0"%char]), Hnumeral.
  - split; vm_compute; discriminate.
  - by left.
Defined.

(** The scenarios of the specification, from the text of the input to the
    printed vector; on [0 0] without a newline the target is also the
    second element of the pair. *)
Example main_scenario_line :
  main 0 "a" ["2"; " "; "7"; " "; "1"; "1"; " "; "1"; "5"; " "; "9"; newline]%char
  = Some [0; 1].
Proof. vm_compute. reflexivity. Qed.

Example main_scenario_eof : main 0 "a" ["0"; " "; "0"]%char = Some [0; 1].
Proof. vm_compute. reflexivity. Qed.

(** With a single integer and no newline the outcome depends on the value
    that the uninitialised [c] happens to hold. *)
Example main_single_integer :
  read_input 0 "a" ["5"]%char = Some ([5], 5) ∧
  read_input 0 newline ["5"]%char = Some ([], 5).
Proof. split; vm_compute; reflexivity. Qed.

(** ** Further properties of [twoSum] *)

(** The table of the first [k] iterations depends on the first [k]
    elements only. *)
Lemma table_after_ext (l1 l2 : list Z) k :
  (∀ n, (n < k)%nat → l1 !! n = l2 !! n) → table_after l1 k = table_after l2 k.
Proof.
  induction k as [|k IH]; intros Hagree; simpl; [done|].
  rewrite (Hagree k) by lia. rewrite IH; [done|]. intros n Hn. apply Hagree. lia.
Qed.

Lemma no_hit_before_ext (l1 l2 : list Z) target k :
  (∀ n, (n < k)%nat → l1 !! n = l2 !! n) →
  no_hit_before l1 target k → no_hit_before l2 target k.
Proof.
  intros Hagree Hno j x Hj Hx.
  rewrite <- (table_after_ext l1 l2 j) by (intros n Hn; apply Hagree; lia).
  apply Hno; [done|]. by rewrite Hagree.
Qed.

(** A hit at index [j] is a pair of elements with the sum [target]. *)
Lemma hit_is_pair (nums : list Z) (target : Z) (j : nat) y z :
  CInt.in_range target →
  nums !! j = Some y →
  table_after nums j !! CInt.sub target y = Some z →
  ∃ i x, z = Z.of_nat i ∧ (i < j < length nums)%nat ∧
         nums !! i = Some x ∧ CInt.add x y = target.
Proof.
  intros Ht Hy Hz. pose proof (lookup_lt_Some _ _ _ Hy).
  apply table_after_lookup in Hz as (i & -> & Hi & Hx & _); [|lia].
  exists i, (CInt.sub target y). repeat split; [lia|done..|].
  by apply add_sub_cancel.
Qed.

(** When no two elements below [k] have the sum [target], no iteration
    before [k] finds its complement. *)
Lemma no_pair_no_hit (nums : list Z) (target : Z) (k : nat) :
  CInt.in_range target → (k ≤ length nums)%nat →
  (∀ (i j : nat) x y, (i < j < k)%nat → nums !! i = Some x →
     nums !! j = Some y → CInt.add x y ≠ target) →
  no_hit_before nums target k.
Proof.
  intros Ht Hk Hnone j y Hj Hy.
  destruct (table_after nums j !! CInt.sub target y) as [z|] eqn:Hz; [|done].
  destruct (hit_is_pair nums target j y z Ht Hy Hz) as (i & x & _ & Hij & Hx & Hsum).
  exfalso. apply (Hnone i j x y); [lia|done..].
Qed.

(** X1.  The empty vector is returned exactly when no two elements at
    distinct indices have the sum [target] (in [int] arithmetic). *)
Theorem twoSum_empty_iff_no_pair (nums : list Z) (target : Z) :
  Z.of_nat (length nums) <= CInt.INT_MAX →
  Forall CInt.in_range nums → CInt.in_range target →
  twoSum nums target = Some [] ↔
  ∀ (i j : nat) x y, (i < j)%nat → nums !! i = Some x → nums !! j = Some y →
    CInt.add x y ≠ target.
Proof.
  intros Hsize Hrange Ht. unfold twoSum. rewrite Forall_lookup in Hrange.
  destruct (twoSum_exec_cases nums target Hsize)
    as [[Hno ->]|(j & y & z & Hj & _ & Hy & Hz & ->)]; split.
  - intros _ i' j' x' y' Hij Hx' Hy'. pose proof (lookup_lt_Some _ _ _ Hy').
    apply (no_hit_no_pair nums target _ i' j' x' y' Hno); [lia|done..|].
    by apply (Hrange i').
  - done.
  - discriminate.
  - intros Hnone. exfalso.
    destruct (hit_is_pair nums target j y z Ht Hy Hz) as (i & x & _ & Hij & Hx & Hsum).
    apply (Hnone i j x y); [lia|done..].
Qed.

Lemma twoSum_empty_iff_no_pair_witness :
  twoSum [1; 2; 3] 100 = Some [] ↔
  ∀ (i j : nat) x y, (i < j)%nat → [1; 2; 3] !! i = Some x →
    [1; 2; 3] !! j = Some y → CInt.add x y ≠ 100.
Proof.
  apply (twoSum_empty_iff_no_pair [1; 2; 3] 100).
  - vm_compute. discriminate.
  - repeat apply List.Forall_cons; try apply List.Forall_nil;
      split; vm_compute; discriminate.
  - split; vm_compute; discriminate.
Defined.

(** X2.  The result is determined by the pairs of the vector: if the
    elements at [i < j] have the sum [target], no pair lies entirely below
    [j], and the value of [nums[i]] does not occur again between [i] and
    [j], then exactly the indices [i] and [j] are returned. *)
Theorem twoSum_returns_first_pair (nums : list Z) (target : Z) (i j : nat)
    (x y : Z) :
  Z.of_nat (length nums) <= CInt.INT_MAX →
  Forall CInt.in_range nums → CInt.in_range target →
  (i < j)%nat → nums !! i = Some x → nums !! j = Some y →
  CInt.add x y = target →
  (∀ (i' j' : nat) x' y', (i' < j' < j)%nat → nums !! i' = Some x' →
     nums !! j' = Some y' → CInt.add x' y' ≠ target) →
  (∀ k, (i < k < j)%nat → nums !! k ≠ Some x) →
  twoSum nums target = Some [Z.of_nat i; Z.of_nat j].
Proof.
  intros Hsize Hrange Ht Hij Hx Hy Hsum Hfirst Hlast.
  pose proof (lookup_lt_Some _ _ _ Hy) as Hj.
  rewrite Forall_lookup in Hrange.
  assert (no_hit_before nums target j) as Hno
    by (apply no_pair_no_hit; [done|lia|done]).
  assert (table_after nums j !! CInt.sub target y = Some (Z.of_nat i)) as Hz.
  { rewrite (sub_of_add x y target) by eauto.
    apply table_after_lookup; [lia|]. exists i. by repeat split. }
  unfold twoSum, twoSum_exec.
  rewrite (run_hit nums target Hsize j y (Z.of_nat i)); [done..|lia].
Qed.

Lemma twoSum_returns_first_pair_witness :
  twoSum [1; 1; 5] 6 = Some [Z.of_nat 1; Z.of_nat 2].
Proof.
  apply (twoSum_returns_first_pair [1; 1; 5] 6 1 2 1 5).
  - vm_compute. discriminate.
  - repeat apply List.Forall_cons; try apply List.Forall_nil;
      split; vm_compute; discriminate.
  - split; vm_compute; discriminate.
  - lia.
  - reflexivity.
  - reflexivity.
  - reflexivity.
  - intros i' j' x' y' Hlt Hx' Hy'.
    assert (i' = 0%nat ∧ j' = 1%nat) as [-> ->] by lia.
    injection Hx' as <-. injection Hy' as <-. vm_compute. discriminate.
  - intros k Hk. lia.
Defined.

(** X3.  The result depends only on the elements up to the second returned
    index: a vector that agrees with [nums] up to that index gives the same
    two indices. *)
Theorem twoSum_ignores_rest (nums nums' : list Z) (target zi zj : Z) :
  Z.of_nat (length nums) <= CInt.INT_MAX →
  Z.of_nat (length nums') <= CInt.INT_MAX →
  twoSum nums target = Some [zi; zj] →
  (∀ n, (n ≤ Z.to_nat zj)%nat → nums' !! n = nums !! n) →
  twoSum nums' target = Some [zi; zj].
Proof.
  intros Hsize Hsize' Hret Hagree.
  destruct (twoSum_Some_pair nums target Hsize zi zj Hret)
    as (i & j & y & -> & -> & Hy & Hno & Hlast).
  rewrite Nat2Z.id in Hagree. pose proof (lookup_lt_Some _ _ _ Hy) as Hj.
  assert (∀ n, (n < j)%nat → nums !! n = nums' !! n) as Hbelow
    by (intros n Hn; symmetry; apply Hagree; lia).
  assert (nums' !! j = Some y) as Hy' by (by rewrite Hagree).
  pose proof (lookup_lt_Some _ _ _ Hy') as Hj'.
  unfold twoSum, twoSum_exec.
  rewrite (run_hit nums' target Hsize' j y (Z.of_nat i)); [done| |done| |lia].
  - by apply (no_hit_before_ext nums nums').
  - rewrite <- (table_after_ext nums nums' j Hbelow).
    apply table_after_lookup; [lia|]. by exists i.
Qed.

Lemma twoSum_ignores_rest_witness :
  twoSum [3; 2; 4; 9; 9] 6 = Some [1; 2].
Proof.
  apply (twoSum_ignores_rest [3; 2; 4] [3; 2; 4; 9; 9] 6 1 2).
  - vm_compute. discriminate.
  - vm_compute. discriminate.
  - vm_compute. reflexivity.
  - intros n Hn. change (Z.to_nat 2) with 2%nat in Hn.
    destruct n as [|[|[|n]]]; [reflexivity..|lia].
Defined.

(** ** Further properties of the reading loop *)

Lemma convert_digits_range negative digits :
  CInt.in_range (convert_digits negative digits).2.
Proof.
  unfold convert_digits, CInt.in_range, CInt.INT_MIN, CInt.INT_MAX.
  destruct digits as [|d digits]; [simpl; lia|].
  destruct (isdigit d); [|simpl; lia].
  destruct (read_digits 0 (d :: digits)) as [magnitude rest].
  set (v := if negative then _ else _).
  destruct (Z.ltb_spec 2147483647 v); [simpl; lia|].
  destruct (Z.ltb_spec v (-2147483648)); simpl; lia.
Qed.

Lemma extract_int_range cin num :
  CInt.in_range num → CInt.in_range (extract_int cin num).2.
Proof.
  intros Hnum. unfold extract_int.
  destruct (failbit cin); [done|].
  destruct (skip_ws (buffer cin)) as [|c rest]; [done|].
  destruct (_ || _); apply convert_digits_range.
Qed.

(** Every element pushed is an [int], and every push but the last one
    consumes characters. *)
Lemma read_loop_bounds fuel :
  ∀ cin nums num c nums' target,
    read_loop fuel cin nums num c = Some (nums', target) →
    Forall CInt.in_range nums → CInt.in_range num →
    Forall CInt.in_range nums' ∧ CInt.in_range target ∧
    (length nums' ≤
     length nums + if failbit cin then 0 else length (buffer cin))%nat.
Proof.
  induction fuel as [|fuel IH];
    intros cin nums num c nums' target Hloop Hnums Hnum; [done|].
  cbn [read_loop] in Hloop.
  destruct (failbit cin) eqn:Hfail.
  { unfold extract_int in Hloop. rewrite Hfail, Hfail in Hloop.
    injection Hloop as <- <-. split; [done|split; [done|lia]]. }
  pose proof (extract_int_range cin num Hnum) as Hrange.
  pose proof (extract_int_progress cin num Hfail) as Hprog.
  destruct (extract_int cin num) as [cin1 num1]. cbn [fst snd] in *.
  destruct (failbit cin1) eqn:Hfail1.
  { injection Hloop as <- <-. split; [done|split; [done|lia]]. }
  specialize (Hprog eq_refl). unfold get in Hloop. rewrite Hfail1 in Hloop.
  assert (Forall CInt.in_range (nums ++ [num1])) as Hpush
    by (apply Forall_app; split; [done|by apply List.Forall_cons]).
  destruct (buffer cin1) as [|x rest] eqn:Hbuf.
  - destruct (Ascii.eqb c newline).
    { injection Hloop as <- <-. split; [done|split; [done|lia]]. }
    destruct (IH _ _ _ _ _ _ Hloop Hpush Hrange) as (? & ? & Hlen).
    split; [done|split; [done|]]. rewrite length_app in Hlen. simpl in Hlen. lia.
  - destruct (Ascii.eqb x newline).
    { injection Hloop as <- <-. split; [done|split; [done|lia]]. }
    destruct (IH _ _ _ _ _ _ Hloop Hpush Hrange) as (? & ? & Hlen).
    split; [done|split; [done|]]. rewrite length_app in Hlen. simpl in *. lia.
Qed.

(** X4.  When [num] holds an [int] at entry, the reading loop ends on every
    input, whatever [c] holds: the vector read holds [int] values only, the
    target is an [int], and the vector has at most as many elements as the
    input has characters. *)
Theorem read_input_bounds (num0 : Z) (c0 : ascii) (stdin : list ascii) :
  CInt.in_range num0 →
  ∃ nums target,
    read_input num0 c0 stdin = Some (nums, target) ∧
    Forall CInt.in_range nums ∧ CInt.in_range target ∧
    (length nums ≤ length stdin)%nat.
Proof.
  intros Hnum0.
  destruct (read_input_total num0 c0 stdin) as [[nums target] Hread].
  exists nums, target. split; [done|].
  destruct (read_loop_bounds _ _ _ _ _ _ _ Hread) as (? & ? & Hlen); [done..|].
  split; [done|split; [done|]]. simpl in Hlen. lia.
Qed.

Lemma read_input_bounds_witness :
  ∃ nums target,
    read_input 0 "a" ["1"; " "; "x"]%char = Some (nums, target) ∧
    Forall CInt.in_range nums ∧ CInt.in_range target ∧
    (length nums ≤ length ["1"; " "; "x"]%char)%nat.
Proof.
  apply (read_input_bounds 0 "a" ["1"; " "; "x"]%char).
  split; vm_compute; discriminate.
Defined.

(** X5.  On every input of at most [INT_MAX] characters [main] reaches its
    output statement, and the vector it prints is either empty or holds two
    indices [i < j] of the vector read whose elements have the target read
    as their sum. *)
Theorem main_result (num0 : Z) (c0 : ascii) (stdin : list ascii) :
  CInt.in_range num0 →
  Z.of_nat (length stdin) <= CInt.INT_MAX →
  ∃ nums target r,
    read_input num0 c0 stdin = Some (nums, target) ∧
    main num0 c0 stdin = Some r ∧
    (r = [] ∨
     ∃ (i j : nat) (x y : Z),
       r = [Z.of_nat i; Z.of_nat j] ∧ (i < j < length nums)%nat ∧
       nums !! i = Some x ∧ nums !! j = Some y ∧ CInt.add x y = target).
Proof.
  intros Hnum0 Hlen.
  destruct (read_input_total num0 c0 stdin) as [[nums target] Hread].
  destruct (read_loop_bounds _ _ _ _ _ _ _ Hread) as (_ & Ht & Hnums); [done..|].
  simpl in Hnums.
  assert (Z.of_nat (length nums) <= CInt.INT_MAX) as Hsize by lia.
  exists nums, target. unfold main, twoSum. rewrite Hread.
  destruct (twoSum_exec_cases nums target Hsize)
    as [[_ ->]|(j & y & z & Hj & _ & Hy & Hz & ->)].
  - exists []. split; [done|]. split; [done|]. by left.
  - destruct (hit_is_pair nums target j y z Ht Hy Hz) as (i & x & -> & ? & ? & ?).
    eexists. split; [done|]. split; [done|]. right. by exists i, j, x, y.
Qed.

Lemma main_result_witness :
  ∃ nums target r,
    read_input 0 "a" ["0"; " "; "0"]%char = Some (nums, target) ∧
    main 0 "a" ["0"; " "; "0"]%char = Some r ∧
    (r = [] ∨
     ∃ (i j : nat) (x y : Z),
       r = [Z.of_nat i; Z.of_nat j] ∧ (i < j < length nums)%nat ∧
       nums !! i = Some x ∧ nums !! j = Some y ∧ CInt.add x y = target).
Proof.
  apply (main_result 0 "a" ["0"; " "; "0"]%char).
  - split; vm_compute; discriminate.
  - vm_compute. discriminate.
Defined.

(** A vector of fewer than two elements holds no pair. *)
Lemma twoSum_short (nums : list Z) (target : Z) :
  (length nums ≤ 1)%nat → twoSum nums target = Some [].
Proof.
  destruct nums as [|x [|x' nums]]; simpl; intros Hlen; [reflexivity| |lia].
  unfold twoSum, twoSum_exec. simpl run.
  change (CInt.to_size_t 0 <? Z.of_nat (length [x])) with true. cbv iota.
  change ([x] !!! Z.to_nat (CInt.to_size_t 0)) with x.
  by rewrite lookup_empty.
Qed.

Lemma extract_int_failed cin num :
  failbit cin = true → extract_int cin num = (cin, num).
Proof. intros Hfail. unfold extract_int. by rewrite Hfail. Qed.

(** The iterations that read integers followed by separators. *)
Lemma read_loop_items items :
  Forall well_formed items →
  ∀ fuel ws rest nums num c,
    whitespace ws →
    ∃ ws' num' c',
      whitespace ws' ∧
      read_loop (length items + fuel)
        {| buffer := ws ++ render items ++ rest; failbit := false |}
        nums num c =
      read_loop fuel {| buffer := ws' ++ rest; failbit := false |}
        (nums ++ (value <$> items)) num' c'.
Proof.
  induction 1 as [|it items Hit _ IH]; intros fuel ws rest nums num c Hws.
  - exists ws, num, c. split; [done|]. simpl. by rewrite app_nil_r.
  - cbn [render length Nat.add]. rewrite <- !app_assoc.
    destruct (read_loop_item (length items + fuel) ws it
                (render items ++ rest) nums num c Hws Hit)
      as (c1 & ws1 & _ & Hws1 & ->).
    destruct (IH fuel ws1 rest (nums ++ [value it]) (value it) c1 Hws1)
      as (ws' & num' & c' & Hws' & ->).
    exists ws', num', c'. split; [done|].
    by rewrite fmap_cons, <- app_assoc.
Qed.

(** The input after the integers read so far decides how the loop ends. *)
Lemma read_input_after_items num0 c0 ws items rest :
  whitespace ws → Forall well_formed items →
  ∃ ws' num' c' fuel,
    whitespace ws' ∧
    read_input num0 c0 (ws ++ render items ++ rest) =
    read_loop (S fuel) {| buffer := ws' ++ rest; failbit := false |}
      (value <$> items) num' c'.
Proof.
  intros Hws Hitems. unfold read_input.
  pose proof (render_length items Hitems) as Hlen.
  remember (length (ws ++ render items ++ rest)) as n eqn:Hn.
  assert (length items ≤ n)%nat as Hfuel by (rewrite Hn, !length_app; lia).
  replace (S n) with (length items + S (n - length items))%nat by lia.
  destruct (read_loop_items items Hitems (S (n - length items))
              ws rest [] num0 c0 Hws) as (ws' & num' & c' & Hws' & ->).
  by exists ws', num', c', (n - length items)%nat.
Qed.

Lemma extract_int_malformed ws c rest num :
  whitespace ws → isspace c = false → isdigit c = false →
  (c = "+"%char ∨ c = "-"%char → ends_numeral rest) →
  ∃ cin',
    extract_int {| buffer := ws ++ c :: rest; failbit := false |} num = (cin', 0) ∧
    failbit cin' = true.
Proof.
  intros Hws Hspace Hdigit Hsign. unfold extract_int. cbn [failbit buffer].
  rewrite skip_ws_app by done.
  assert (ends_numeral rest → ∀ negative, ∃ cin',
            convert_digits negative rest = (cin', 0) ∧ failbit cin' = true)
    as Hrest.
  { intros Hend negative. unfold convert_digits.
    destruct rest as [|d rest']; [by eexists|].
    rewrite (Hend d rest' eq_refl). by eexists. }
  destruct (Ascii.eqb_spec c "-") as [Hminus|Hminus]; cbn [orb].
  - apply Hrest. auto.
  - destruct (Ascii.eqb_spec c "+") as [Hplus|Hplus].
    + apply Hrest. auto.
    + unfold convert_digits. rewrite Hdigit. by eexists.
Qed.

Lemma convert_digits_clamped ds rest (negative : bool) :
  numeral ds → ends_numeral rest →
  convert_digits negative (ds ++ rest) =
  let v := if negative then - decimal_value ds else decimal_value ds in
  if CInt.INT_MAX <? v
  then ({| buffer := rest; failbit := true |}, CInt.INT_MAX)
  else if v <? CInt.INT_MIN
  then ({| buffer := rest; failbit := true |}, CInt.INT_MIN)
  else ({| buffer := rest; failbit := false |}, v).
Proof.
  intros Hnum Hrest.
  destruct (numeral_inv ds Hnum) as (d & ds' & Heq & Hd & Hds).
  unfold convert_digits. rewrite read_digits_app by done.
  rewrite Heq at 1. cbn [app]. rewrite Hd.
  by replace (0 * 10 ^ Z.of_nat (length ds) + decimal_value ds)
    with (decimal_value ds) by lia.
Qed.

(** [cin >> num] on a token whose value does not fit [int]. *)
Lemma extract_int_overflow ws tok v rest num :
  whitespace ws → int_token tok v → ¬ CInt.in_range v → ends_numeral rest →
  extract_int {| buffer := ws ++ tok ++ rest; failbit := false |} num =
  ({| buffer := rest; failbit := true |},
   if v <? 0 then CInt.INT_MIN else CInt.INT_MAX).
Proof.
  intros Hws Htok Hv Hrest. unfold extract_int. cbn [failbit buffer].
  assert (∀ ds (negative : bool), numeral ds →
            v = (if negative then - decimal_value ds else decimal_value ds) →
            convert_digits negative (ds ++ rest) =
            ({| buffer := rest; failbit := true |},
             if v <? 0 then CInt.INT_MIN else CInt.INT_MAX)) as Hconv.
  { intros ds negative Hnum ->. rewrite convert_digits_clamped by done.
    cbv zeta. set (v := if negative then _ else _) in *.
    unfold CInt.in_range, CInt.INT_MIN, CInt.INT_MAX in *.
    destruct (Z.ltb_spec 2147483647 v), (Z.ltb_spec v (-2147483648)),
      (Z.ltb_spec v 0); try done; lia. }
  destruct Htok as [ds Hnum|ds Hnum|ds Hnum].
  - destruct (numeral_inv ds Hnum) as (d & ds' & Heq & Hd & _).
    rewrite Heq at 1. cbn [app].
    rewrite skip_ws_app by auto using isdigit_not_space.
    destruct (isdigit_not_sign d Hd) as [-> ->]. cbn [orb].
    change (d :: ds' ++ rest) with ((d :: ds') ++ rest). rewrite <- Heq.
    by apply (Hconv ds false).
  - cbn [app]. rewrite skip_ws_app by (done || reflexivity).
    change (Ascii.eqb "+" "-") with false. change (Ascii.eqb "+" "+") with true.
    cbn [orb]. by apply (Hconv ds false).
  - cbn [app]. rewrite skip_ws_app by (done || reflexivity).
    change (Ascii.eqb "-" "-") with true.
    cbn [orb]. by apply (Hconv ds true).
Qed.

(** X6.  Input without any integer (empty, or white space only): nothing is
    stored, the vector is empty and the target is the value that the
    uninitialised [num] held at entry; the printed vector is empty. *)
Theorem main_blank_input (num0 : Z) (c0 : ascii) (ws : list ascii) :
  whitespace ws →
  read_input num0 c0 ws = Some ([], num0) ∧ main num0 c0 ws = Some [].
Proof.
  intros Hws.
  assert (read_input num0 c0 ws = Some ([], num0)) as Hread.
  { unfold read_input. cbn [read_loop]. unfold extract_int. cbn [failbit buffer].
    by rewrite skip_ws_all. }
  split; [done|]. unfold main. rewrite Hread. apply twoSum_short. simpl. lia.
Qed.

Lemma main_blank_input_witness :
  read_input 7 "a" [" "%char; newline] = Some ([], 7) ∧
  main 7 "a" [" "%char; newline] = Some [].
Proof.
  apply (main_blank_input 7 "a" [" "%char; newline]).
  repeat apply List.Forall_cons; [reflexivity..|apply List.Forall_nil].
Defined.

(** X7.  Input with a single integer, followed by a newline, by the end of
    the file or by white space up to the end of the file: the target is that
    integer, the vector holds at most that integer, and the printed vector
    is empty, whatever the uninitialised [num] and [c] held at entry. *)
Theorem single_integer_no_pair (num0 : Z) (c0 : ascii) (ws tok : list ascii)
    (v : Z) (trailing : list ascii) :
  whitespace ws → int_token tok v → CInt.in_range v →
  trailing = [] ∨ (∃ rest, trailing = newline :: rest) ∨ separator trailing →
  ∃ nums,
    read_input num0 c0 (ws ++ tok ++ trailing) = Some (nums, v) ∧
    (length nums ≤ 1)%nat ∧
    main num0 c0 (ws ++ tok ++ trailing) = Some [].
Proof.
  intros Hws Htok Hv Htrail.
  assert (∃ nums, read_input num0 c0 (ws ++ tok ++ trailing) = Some (nums, v) ∧
                  (length nums ≤ 1)%nat) as (nums & Hread & Hlen).
  { unfold read_input.
    assert (0 < length (ws ++ tok ++ trailing))%nat as Hfuel.
    { pose proof (int_token_length tok v Htok). rewrite !length_app. lia. }
    destruct (length (ws ++ tok ++ trailing)) as [|fuel]; [lia|]. clear Hfuel.
    destruct Htrail as [->|[[rest ->]|Hsep]].
    - cbn [read_loop].
      rewrite (extract_int_token ws tok v) by auto using nil_ends_numeral.
      cbn [failbit get buffer].
      destruct (Ascii.eqb c0 newline); [by exists []; split; [|simpl; lia]|].
      exists [v]. split; [|simpl; lia].
      by rewrite extract_int_failed.
    - exists []. split; [|simpl; lia].
      apply (read_loop_line [] (List.Forall_nil _) (S (S fuel)) ws tok v rest);
        [done..|simpl; lia].
    - pose proof (separator_ends_numeral _ [] Hsep) as Hend.
      rewrite app_nil_r in Hend.
      destruct Hsep as (c' & ws' & -> & _ & Hnl & Hws').
      apply Ascii.eqb_neq in Hnl. cbn [read_loop].
      rewrite (extract_int_token ws tok v) by done.
      cbn [failbit get buffer]. rewrite Hnl.
      exists [v]. split; [|simpl; lia].
      unfold extract_int. cbn [failbit buffer]. by rewrite skip_ws_all. }
  exists nums. split; [done|]. split; [done|].
  unfold main. rewrite Hread. by apply twoSum_short.
Qed.

Lemma single_integer_no_pair_witness :
  ∃ nums,
    read_input 7 newline (["0"%char] ++ []) = Some (nums, 0) ∧
    (length nums ≤ 1)%nat ∧
    main 7 newline (["0"%char] ++ []) = Some [].
Proof.
  apply (single_integer_no_pair 7 newline [] ["0"%char] 0 []).
  - apply List.Forall_nil.
  - apply (token_unsigned ["0"%char]). split; [discriminate|].
    apply List.Forall_cons; [reflexivity|apply List.Forall_nil].
  - split; vm_compute; discriminate.
  - by left.
Defined.

(** X8.  Input in which, after some integers of a line, the next token does
    not start an integer (a character that is neither white space, a digit
    nor a sign, or a sign that no digit follows): reading stops there, the
    integers before form the vector and the target is 0. *)
Theorem read_input_malformed (num0 : Z) (c0 : ascii) (ws : list ascii)
    (items : list item) (c : ascii) (rest : list ascii) :
  whitespace ws → Forall well_formed items →
  isspace c = false → isdigit c = false →
  (c = "+"%char ∨ c = "-"%char → ends_numeral rest) →
  let stdin := ws ++ render items ++ c :: rest in
  read_input num0 c0 stdin = Some (value <$> items, 0) ∧
  main num0 c0 stdin = twoSum (value <$> items) 0.
Proof.
  intros Hws Hitems Hspace Hdigit Hsign stdin.
  assert (read_input num0 c0 stdin = Some (value <$> items, 0)) as Hread.
  { unfold stdin.
    destruct (read_input_after_items num0 c0 ws items (c :: rest) Hws Hitems)
      as (ws' & num' & c' & fuel & Hws' & ->).
    cbn [read_loop].
    destruct (extract_int_malformed ws' c rest num' Hws' Hspace Hdigit Hsign)
      as (cin' & -> & Hfail).
    by rewrite Hfail. }
  split; [done|]. unfold main. by rewrite Hread.
Qed.

Lemma read_input_malformed_witness :
  let stdin := ["1"; " "; "x"]%char in
  read_input 7 "a" stdin = Some ([1], 0) ∧ main 7 "a" stdin = twoSum [1] 0.
Proof.
  apply (read_input_malformed 7 "a" []
           [ {| text := ["1"%char]; value := 1; sep := [" "%char] |} ]
           "x" []).
  - apply List.Forall_nil.
  - apply List.Forall_cons; [split; [|split]; cbn [text value sep]|apply List.Forall_nil].
    + apply (token_unsigned ["1"%char]). split; [discriminate|].
      apply List.Forall_cons; [reflexivity|apply List.Forall_nil].
    + split; vm_compute; discriminate.
    + exists " "%char, []. repeat split; [discriminate|apply List.Forall_nil].
  - reflexivity.
  - reflexivity.
  - intros [Hc|Hc]; discriminate Hc.
Defined.

(** X9.  Input in which, after some integers of a line, an integer token
    does not fit [int]: reading stops there, the integers before form the
    vector and the target is [INT_MAX] for a positive value and [INT_MIN]
    for a negative one. *)
Theorem read_input_overflow (num0 : Z) (c0 : ascii) (ws : list ascii)
    (items : list item) (tok : list ascii) (v : Z) (rest : list ascii) :
  whitespace ws → Forall well_formed items →
  int_token tok v → ¬ CInt.in_range v → ends_numeral rest →
  let stdin := ws ++ render items ++ tok ++ rest in
  let target := if v <? 0 then CInt.INT_MIN else CInt.INT_MAX in
  read_input num0 c0 stdin = Some (value <$> items, target) ∧
  main num0 c0 stdin = twoSum (value <$> items) target.
Proof.
  intros Hws Hitems Htok Hv Hrest stdin target.
  assert (read_input num0 c0 stdin = Some (value <$> items, target)) as Hread.
  { unfold stdin.
    destruct (read_input_after_items num0 c0 ws items (tok ++ rest) Hws Hitems)
      as (ws' & num' & c' & fuel & Hws' & ->).
    cbn [read_loop].
    by rewrite (extract_int_overflow ws' tok v rest num'). }
  split; [done|]. unfold main. by rewrite Hread.
Qed.

Lemma read_input_overflow_witness :
  let stdin := ["1"; " "; "-"; "2"; "1"; "4"; "7"; "4"; "8"; "3"; "6"; "4"; "9"]%char in
  read_input 7 "a" stdin = Some ([1], CInt.INT_MIN) ∧
  main 7 "a" stdin = twoSum [1] CInt.INT_MIN.
Proof.
  apply (read_input_overflow 7 "a" []
           [ {| text := ["1"%char]; value := 1; sep := [" "%char] |} ]
           ["-"; "2"; "1"; "4"; "7"; "4"; "8"; "3"; "6"; "4"; "9"]%char
           (-2147483649) []).
  - apply List.Forall_nil.
  - apply List.Forall_cons; [split; [|split]; cbn [text value sep]|apply List.Forall_nil].
    + apply (token_unsigned ["1"%char]). split; [discriminate|].
      apply List.Forall_cons; [reflexivity|apply List.Forall_nil].
    + split; vm_compute; discriminate.
    + exists " "%char, []. repeat split; [discriminate|apply List.Forall_nil].
  - apply (token_minus ["2"; "1"; "4"; "7"; "4"; "8"; "3"; "6"; "4"; "9"]%char).
    split; [discriminate|].
    repeat apply List.Forall_cons; [reflexivity..|apply List.Forall_nil].
  - intros [Hlo _]. vm_compute in Hlo. by apply Hlo.
  - by intros c rest' ?.
Defined.
